(** * mq/options.go: connection, publish and subscribe options

    A shallow embedding of the functional-options layer of package [mq]
    and the properties of its configurators.

    Conventions of the embedding:
    - a Go function taking a pointer to [T] is a function [T -> result T]:
      the record behind the pointer goes in and the updated record comes
      out, or the call panics;
    - a nil-able Go value (interface, pointer, func) is an [option], with
      [None] for nil;
    - Go's [int] is [Z] (no arithmetic is done on it here);
    - names that Go keeps apart by package, type or receiver live in Rocq
      modules: [context.Context] is the type, [Options.Context] the field,
      [Context] the configurator. *)

From Stdlib Require Import String List ZArith Bool Lia Permutation.
From Stdlib Require Import Floats.PrimFloat.
Import ListNotations.

Local Open Scope string_scope.

(** ** Go values and panics *)

Module Go.

#[local] Set Warnings "-register-all".

(** The outcome of a call: it returns, or it panics with a message.  A
    panic unwinds the caller as well, so no record comes back from it. *)
Inductive result (A : Type) : Type :=
| Ok (a : A)
| Panic (msg : string).

Arguments Ok {A} a.
Arguments Panic {A} msg.

Definition bind {A B : Type} (m : result A) (f : A -> result B) : result B :=
  match m with
  | Ok a => f a
  | Panic msg => Panic msg
  end.

(** Dynamic types of the values stored behind [interface{}] that this
    development exercises. [TBytes] is [[]byte], a type that Go does
    not allow to be compared; [TArray n] is [[n]interface{}], a
    comparable type whose values may still hold slices. *)
Inductive type : Set :=
| TString | TInt | TBool | TFloat64 | TBytes | TArray (n : nat).

(** A value of type [interface{}]: nil, or a value with its dynamic
    type. *)
Inductive any : Set :=
| Nil
| Str (s : string)
| Int (z : Z)
| Bool (b : bool)
| Float64 (f : float)
| Bytes (l : list Z)
| Array (elems : list any).

Definition TypeOf (x : any) : option type :=
  match x with
  | Nil => None
  | Str _ => Some TString
  | Int _ => Some TInt
  | Bool _ => Some TBool
  | Float64 _ => Some TFloat64
  | Bytes _ => Some TBytes
  | Array elems => Some (TArray (length elems))
  end.

Definition Comparable (t : type) : bool :=
  match t with
  | TBytes => false
  | _ => true
  end.

(** Go's [==] on two interface values: equal when both are nil, or when
    the dynamic types are identical and the values equal; comparing two
    values of one non-comparable type panics.  Floats compare as IEEE
    754 says, so a NaN differs from itself.  Two arrays of one length
    are compared element by element, in order, until two elements
    differ; the elements are interface values, so the comparison panics
    when it reaches two slices. *)
Fixpoint iface_eq (x y : any) {struct x} : result bool :=
  match x, y with
  | Nil, Nil => Ok true
  | Str a, Str b => Ok (String.eqb a b)
  | Int a, Int b => Ok (Z.eqb a b)
  | Bool a, Bool b => Ok (Bool.eqb a b)
  | Float64 a, Float64 b => Ok (PrimFloat.eqb a b)
  | Bytes _, Bytes _ => Panic "runtime error: comparing uncomparable type []uint8"
  | Array a, Array b =>
      if Nat.eqb (length a) (length b) then
        (fix elements (a b : list any) {struct a} : result bool :=
           match a, b with
           | x :: a', y :: b' =>
               bind (iface_eq x y)
                 (fun same => if same then elements a' b' else Ok false)
           | _, _ => Ok true
           end) a b
      else Ok false
  | _, _ => Ok false
  end.

End Go.

Import Go.

Notation "x <- m ;; k" := (Go.bind m (fun x => k))
  (at level 61, m at next level, right associativity).

(** ** Package context of the Go standard library

    Only what options.go calls: [Background], [WithValue] and the lookup
    [Value].  [WithValue] panics on a nil parent, on a nil key and on a
    key whose type is not comparable. *)

Module context.

Inductive Ctx : Set :=
| backgroundCtx
| valueCtx (parent : Ctx) (key val : any).

(** The interface type [context.Context]; [None] is the nil interface. *)
Definition Context : Set := option Ctx.

Definition Background : Context := Some backgroundCtx.

Definition WithValue (parent : Context) (key val : any) : result Context :=
  match parent with
  | None => Panic "cannot create context from nil parent"
  | Some p =>
      match TypeOf key with
      | None => Panic "nil key"
      | Some t =>
          if Comparable t then Ok (Some (valueCtx p key val))
          else Panic "key is not comparable"
      end
  end.

(** [c.Value(key)]: the innermost binding whose key equals [key], nil
    when there is none. *)
Fixpoint Value (c : Ctx) (key : any) : result any :=
  match c with
  | backgroundCtx => Ok Nil
  | valueCtx parent k v =>
      same <- iface_eq k key ;;
      if same then Ok v else Value parent key
  end.

End context.

(** ** Types declared outside options.go

    [Codecer] and [Handler] are declared elsewhere in package [mq],
    [tls.Config] and [sarama.KafkaVersion] in other packages.  The options
    layer only stores values of these types, so they are parameters of
    the development; [World] is whatever a logger writes to. *)

Class External : Type := {
  Codecer : Type;
  Handler : Type;
  tls_Config : Type;
  KafkaVersion : Type;
  KafkaVersion_zero : KafkaVersion;
  World : Type
}.

(** ** Strategies (options.go, lines 10-30) *)

Definition StrategyKindRetry : string := "retry".
Definition StrategyKindDoOnce : string := "do_once".
Definition StrategyKindSendBack : string := "send_back".

Module Strategy.

(** The interface [Strategy]: a type implements it by giving the method
    [Strategy() string]. *)
Class impl (T : Type) : Type := Strategy : T -> string.

(** A non-nil interface value: a dynamic type, its method and a value. *)
Record dyn : Type := pack {
  dtype : Type;
  dimpl : impl dtype;
  dval : dtype
}.

(** A value of interface type [Strategy]; [None] is nil. *)
Definition t : Type := option dyn.

(** Conversion of a value of an implementing type to the interface. *)
Definition box {T : Type} `{impl T} (v : T) : t := Some (pack T _ v).

(** The method call [s.Strategy()] on a non-nil interface value. *)
Definition call (s : dyn) : string := @Strategy (dtype s) (dimpl s) (dval s).

End Strategy.

Definition strategyImpl : Set := string.

#[export] Instance strategyImpl_Strategy : Strategy.impl strategyImpl :=
  fun impl => impl.

Definition StrategyRetry : strategyImpl := StrategyKindRetry.
Definition StrategyDoOnce : strategyImpl := StrategyKindDoOnce.
Definition StrategySendBack : strategyImpl := StrategyKindSendBack.

(** ** Logger (options.go, lines 32-38)

    The five methods log their arguments somewhere; each is a
    transformation of [World]. *)

Record Logger `{External} : Type := mkLogger {
  Info : list any -> World -> World;
  Warn : list any -> World -> World;
  Error : list any -> World -> World;
  Errorf : string -> list any -> World -> World;
  Infof : string -> list any -> World -> World
}.

(** ** Options (options.go, lines 40-61) *)

Module Options.

Record t `{External} : Type := mk {
  Addresses : list string;
  Version : KafkaVersion;
  Secure : bool;
  Codec : option Codecer;
  Username : string;
  Password : string;
  Algorithm : string;
  ErrorHandler : option Handler;
  TLSConfig : option tls_Config;
  Context : context.Context;
  Log : option Logger;
  Otel : bool
}.

(** The zero value [Options{}]. *)
Definition zero `{External} : t :=
  mk _ [] KafkaVersion_zero false None "" "" "" None None None None false.

(** Field assignments [o.F = v]. *)
Definition set_Addresses `{External} (o : t) (v : list string) : t :=
  mk _ v (Version o) (Secure o) (Codec o) (Username o) (Password o)
     (Algorithm o) (ErrorHandler o) (TLSConfig o) (Context o) (Log o) (Otel o).

Definition set_Version `{External} (o : t) (v : KafkaVersion) : t :=
  mk _ (Addresses o) v (Secure o) (Codec o) (Username o) (Password o)
     (Algorithm o) (ErrorHandler o) (TLSConfig o) (Context o) (Log o) (Otel o).

Definition set_Secure `{External} (o : t) (v : bool) : t :=
  mk _ (Addresses o) (Version o) v (Codec o) (Username o) (Password o)
     (Algorithm o) (ErrorHandler o) (TLSConfig o) (Context o) (Log o) (Otel o).

Definition set_Codec `{External} (o : t) (v : option Codecer) : t :=
  mk _ (Addresses o) (Version o) (Secure o) v (Username o) (Password o)
     (Algorithm o) (ErrorHandler o) (TLSConfig o) (Context o) (Log o) (Otel o).

Definition set_Username `{External} (o : t) (v : string) : t :=
  mk _ (Addresses o) (Version o) (Secure o) (Codec o) v (Password o)
     (Algorithm o) (ErrorHandler o) (TLSConfig o) (Context o) (Log o) (Otel o).

Definition set_Password `{External} (o : t) (v : string) : t :=
  mk _ (Addresses o) (Version o) (Secure o) (Codec o) (Username o) v
     (Algorithm o) (ErrorHandler o) (TLSConfig o) (Context o) (Log o) (Otel o).

Definition set_Algorithm `{External} (o : t) (v : string) : t :=
  mk _ (Addresses o) (Version o) (Secure o) (Codec o) (Username o) (Password o)
     v (ErrorHandler o) (TLSConfig o) (Context o) (Log o) (Otel o).

Definition set_ErrorHandler `{External} (o : t) (v : option Handler) : t :=
  mk _ (Addresses o) (Version o) (Secure o) (Codec o) (Username o) (Password o)
     (Algorithm o) v (TLSConfig o) (Context o) (Log o) (Otel o).

Definition set_TLSConfig `{External} (o : t) (v : option tls_Config) : t :=
  mk _ (Addresses o) (Version o) (Secure o) (Codec o) (Username o) (Password o)
     (Algorithm o) (ErrorHandler o) v (Context o) (Log o) (Otel o).

Definition set_Context `{External} (o : t) (v : context.Context) : t :=
  mk _ (Addresses o) (Version o) (Secure o) (Codec o) (Username o) (Password o)
     (Algorithm o) (ErrorHandler o) (TLSConfig o) v (Log o) (Otel o).

Definition set_Log `{External} (o : t) (v : option Logger) : t :=
  mk _ (Addresses o) (Version o) (Secure o) (Codec o) (Username o) (Password o)
     (Algorithm o) (ErrorHandler o) (TLSConfig o) (Context o) v (Otel o).

Definition set_Otel `{External} (o : t) (v : bool) : t :=
  mk _ (Addresses o) (Version o) (Secure o) (Codec o) (Username o) (Password o)
     (Algorithm o) (ErrorHandler o) (TLSConfig o) (Context o) (Log o) v.

(** [o.Context.Value(key)]; calling a method of a nil interface panics. *)
Definition lookup `{External} (o : t) (key : any) : result any :=
  match Context o with
  | None =>
      Panic "runtime error: invalid memory address or nil pointer dereference"
  | Some c => context.Value c key
  end.

End Options.

(** ** Connection configurators (options.go, lines 63-144) *)

Definition Option `{External} : Type := Options.t -> result Options.t.

Definition Addresses `{External} (addrs : list string) : Option :=
  fun o => Ok (Options.set_Addresses o addrs).

Definition Sasl `{External} (user pass algorithm : string) : Option :=
  fun o =>
    let o := Options.set_Username o user in
    let o := Options.set_Password o pass in
    Ok (Options.set_Algorithm o algorithm).

Definition Version `{External} (version : KafkaVersion) : Option :=
  fun o => Ok (Options.set_Version o version).

Definition Secure `{External} (b : bool) : Option :=
  fun o => Ok (Options.set_Secure o b).

Definition Codec `{External} (c : option Codecer) : Option :=
  fun o => Ok (Options.set_Codec o c).

Definition ErrorHandler `{External} (h : option Handler) : Option :=
  fun o => Ok (Options.set_ErrorHandler o h).

Definition SetTLSConfig `{External} (t : option tls_Config) : Option :=
  fun o => Ok (Options.set_TLSConfig o t).

Definition Context `{External} (c : context.Context) : Option :=
  fun o => Ok (Options.set_Context o c).

Definition ContextWithValue `{External} (k v : any) : Option :=
  fun o =>
    let o :=
      match Options.Context o with
      | None => Options.set_Context o context.Background
      | Some _ => o
      end in
    c <- context.WithValue (Options.Context o) k v ;;
    Ok (Options.set_Context o c).

Definition Log `{External} (log : option Logger) : Option :=
  fun o =>
    match log with
    | Some _ => Ok (Options.set_Log o log)
    | None => Ok o
    end.

Definition Otel `{External} (b : bool) : Option :=
  fun o => Ok (Options.set_Otel o b).

(** The loop [for _, o := range opts { o(&opt) }]: every configurator
    is called on the same record, in the order of the list. *)
Fixpoint applyEach {T : Type} (opts : list (T -> result T)) (opt : T) : result T :=
  match opts with
  | [] => Ok opt
  | o :: rest => opt' <- o opt ;; applyEach rest opt'
  end.

(** Modelled from the spec: the function that builds the connection
    configuration is not in options.go.  Section 4.1 of the specification
    describes it as the builder that [NewSubscribeOptions] instantiates for
    subscriptions: the configurators are applied, in the order supplied,
    to a record and the record is returned. *)
Definition applyOptions `{External} (opts : list Option) (o : Options.t)
  : result Options.t :=
  applyEach opts o.

(** ** Publish options (options.go, lines 146-159) *)

Module PublishOptions.

Record t : Set := mk {
  Context : context.Context
}.

Definition set_Context (o : t) (v : context.Context) : t := mk v.

End PublishOptions.

Definition PublishOption : Set := PublishOptions.t -> result PublishOptions.t.

Definition PublishContext (ctx : context.Context) : PublishOption :=
  fun o => Ok (PublishOptions.set_Context o ctx).

(** ** Subscribe options (options.go, lines 161-230) *)

Module SubscribeOptions.

Record t : Type := mk {
  AutoAck : bool;
  Queue : string;
  RetryNum : Z;
  Strategy : Strategy.t;
  Context : context.Context
}.

Definition set_AutoAck (o : t) (v : bool) : t :=
  mk v (Queue o) (RetryNum o) (Strategy o) (Context o).

Definition set_Queue (o : t) (v : string) : t :=
  mk (AutoAck o) v (RetryNum o) (Strategy o) (Context o).

Definition set_RetryNum (o : t) (v : Z) : t :=
  mk (AutoAck o) (Queue o) v (Strategy o) (Context o).

Definition set_Strategy (o : t) (v : Strategy.t) : t :=
  mk (AutoAck o) (Queue o) (RetryNum o) v (Context o).

Definition set_Context (o : t) (v : context.Context) : t :=
  mk (AutoAck o) (Queue o) (RetryNum o) (Strategy o) v.

End SubscribeOptions.

Definition SubscribeOption : Type :=
  SubscribeOptions.t -> result SubscribeOptions.t.

Definition NewSubscribeOptions (opts : list SubscribeOption)
  : result SubscribeOptions.t :=
  let opt :=
    {| SubscribeOptions.AutoAck := true;
       SubscribeOptions.Queue := "";
       SubscribeOptions.RetryNum := 0;
       SubscribeOptions.Strategy := None;
       SubscribeOptions.Context := None |} in
  applyEach opts opt.

Definition DisableAutoAck : SubscribeOption :=
  fun o => Ok (SubscribeOptions.set_AutoAck o false).

Definition Queue (name : string) : SubscribeOption :=
  fun o => Ok (SubscribeOptions.set_Queue o name).

Definition SubscribeContext (ctx : context.Context) : SubscribeOption :=
  fun o => Ok (SubscribeOptions.set_Context o ctx).

Definition SubscribeRetryNum (v : Z) : SubscribeOption :=
  fun o => Ok (SubscribeOptions.set_RetryNum o v).

Definition SubscribeStrategy (v : Strategy.t) : SubscribeOption :=
  fun o => Ok (SubscribeOptions.set_Strategy o v).

(** ** Calls of the exported configurators

    A configurator is a closure, so what it assigns cannot be read off its
    value.  A [call] names a constructor of options.go with its
    arguments; [configurator] is the closure the call returns and
    [assigns] lists the fields that the closure assigns when it runs. *)

Inductive field : Set :=
| FAddresses | FVersion | FSecure | FCodec | FUsername | FPassword
| FAlgorithm | FErrorHandler | FTLSConfig | FContext | FLog | FOtel.

Scheme Equality for field.

Definition mentions (fs : list field) (f : field) : bool :=
  existsb (field_beq f) fs.

Definition disjoint (fs gs : list field) : bool :=
  forallb (fun f => negb (mentions gs f)) fs.

Inductive call `{External} : Type :=
| CallAddresses (addrs : list string)
| CallSasl (user pass algorithm : string)
| CallVersion (version : KafkaVersion)
| CallSecure (b : bool)
| CallCodec (c : option Codecer)
| CallErrorHandler (h : option Handler)
| CallSetTLSConfig (t : option tls_Config)
| CallContext (c : context.Context)
| CallContextWithValue (k v : any)
| CallLog (log : option Logger)
| CallOtel (b : bool).

Definition configurator `{External} (c : call) : Option :=
  match c with
  | CallAddresses addrs => Addresses addrs
  | CallSasl user pass algorithm => Sasl user pass algorithm
  | CallVersion version => Version version
  | CallSecure b => Secure b
  | CallCodec c => Codec c
  | CallErrorHandler h => ErrorHandler h
  | CallSetTLSConfig t => SetTLSConfig t
  | CallContext c => Context c
  | CallContextWithValue k v => ContextWithValue k v
  | CallLog log => Log log
  | CallOtel b => Otel b
  end.

(** The fields assigned by the body of the closure.  [Log] guards its
    assignment, so [Log(nil)] assigns nothing. *)
Definition assigns `{External} (c : call) : list field :=
  match c with
  | CallAddresses _ => [FAddresses]
  | CallSasl _ _ _ => [FUsername; FPassword; FAlgorithm]
  | CallVersion _ => [FVersion]
  | CallSecure _ => [FSecure]
  | CallCodec _ => [FCodec]
  | CallErrorHandler _ => [FErrorHandler]
  | CallSetTLSConfig _ => [FTLSConfig]
  | CallContext _ => [FContext]
  | CallContextWithValue _ _ => [FContext]
  | CallLog (Some _) => [FLog]
  | CallLog None => []
  | CallOtel _ => [FOtel]
  end.

(** Every closure but that of [ContextWithValue] assigns values taken from
    the arguments of its constructor; [ContextWithValue] reads the
    [Context] field of the record and assigns a context derived from it. *)
Definition reads_record `{External} (c : call) : bool :=
  match c with
  | CallContextWithValue _ _ => true
  | _ => false
  end.

(** A key that [context.WithValue] accepts: not nil and of a comparable
    dynamic type. *)
Definition accepted_key (k : any) : bool :=
  match TypeOf k with
  | Some t => Comparable t
  | None => false
  end.

(** Calls whose closure returns on every record. *)
Definition returns `{External} (c : call) : bool :=
  match c with
  | CallContextWithValue k _ => accepted_key k
  | _ => true
  end.

(** Two records agree on a field. *)
Definition field_eq `{External} (f : field) (o o' : Options.t) : Prop :=
  match f with
  | FAddresses => Options.Addresses o = Options.Addresses o'
  | FVersion => Options.Version o = Options.Version o'
  | FSecure => Options.Secure o = Options.Secure o'
  | FCodec => Options.Codec o = Options.Codec o'
  | FUsername => Options.Username o = Options.Username o'
  | FPassword => Options.Password o = Options.Password o'
  | FAlgorithm => Options.Algorithm o = Options.Algorithm o'
  | FErrorHandler => Options.ErrorHandler o = Options.ErrorHandler o'
  | FTLSConfig => Options.TLSConfig o = Options.TLSConfig o'
  | FContext => Options.Context o = Options.Context o'
  | FLog => Options.Log o = Options.Log o'
  | FOtel => Options.Otel o = Options.Otel o'
  end.

(** Two records agree on every field outside [fs]. *)
Definition same_outside `{External} (fs : list field) (o o' : Options.t) : Prop :=
  forall f, mentions fs f = false -> field_eq f o o'.

(** The last call of a sequence that assigns field [f], if any: the
    last-write-wins reading of the sequence, as the specification words
    it. *)
Definition last_write `{External} (f : field) (cs : list call) : option call :=
  find (fun c => mentions (assigns c) f) (rev cs).

(** The argument of the last [Log] call with a non-nil logger. *)
Definition last_logger `{External} (cs : list call) : option Logger :=
  fold_left
    (fun acc c => match c with CallLog (Some l) => Some l | _ => acc end)
    cs None.

Definition supplies_logger `{External} (c : call) : bool :=
  match c with
  | CallLog (Some _) => true
  | _ => false
  end.

(** Modelled from the spec: options.go defines no logger.  This is the
    no-op logger that section 3 of the specification names as the
    fallback: each of its five methods leaves the world as it is. *)
Definition noopLogger `{External} : Logger :=
  {| Info := fun _ w => w;
     Warn := fun _ w => w;
     Error := fun _ w => w;
     Errorf := fun _ _ w => w;
     Infof := fun _ _ w => w |}.

(** Modelled from the spec: options.go has no record of defaults for the
    connection; its configurators leave Log nil unless [Log] is given a
    logger.  Section 3 of the specification makes the logger optional,
    falling back to a no-op logger, and section 4.1 has the defaults
    established before any configurator runs.  This is the
    default-initialized record with that fallback in place. *)
Definition defaultOptions `{External} : Options.t :=
  Options.set_Log Options.zero (Some noopLogger).

(** Modelled from the spec: the function that builds the connection
    configuration is not in options.go.  As section 4.1 of the
    specification describes it, the configurators are applied in order to
    the default-initialized record and the result is the finished
    configuration. *)
Definition NewOptions `{External} (opts : list Option) : result Options.t :=
  applyOptions opts defaultOptions.

(** Calls of the exported subscribe configurators. *)
Inductive subscribe_call : Type :=
| CallDisableAutoAck
| CallQueue (name : string)
| CallSubscribeContext (ctx : context.Context)
| CallSubscribeRetryNum (v : Z)
| CallSubscribeStrategy (v : Strategy.t).

Definition subscribe_configurator (c : subscribe_call) : SubscribeOption :=
  match c with
  | CallDisableAutoAck => DisableAutoAck
  | CallQueue name => Queue name
  | CallSubscribeContext ctx => SubscribeContext ctx
  | CallSubscribeRetryNum v => SubscribeRetryNum v
  | CallSubscribeStrategy v => SubscribeStrategy v
  end.

(** The argument of the last [SubscribeRetryNum] call, [0] without one. *)
Definition last_retry (cs : list subscribe_call) : Z :=
  fold_left
    (fun acc c => match c with CallSubscribeRetryNum v => v | _ => acc end)
    cs 0%Z.

Definition retry_arg_nonneg (c : subscribe_call) : bool :=
  match c with
  | CallSubscribeRetryNum v => (0 <=? v)%Z
  | _ => true
  end.

(** The argument of the last [SubscribeStrategy] call, nil without one. *)
Definition last_strategy (cs : list subscribe_call) : Strategy.t :=
  fold_left
    (fun acc c => match c with CallSubscribeStrategy v => v | _ => acc end)
    cs None.

(** A strategy value is named when it is nil or reports a non-empty
    identity. *)
Definition named (s : Strategy.t) : bool :=
  match s with
  | None => true
  | Some d => negb (String.eqb (Strategy.call d) "")
  end.

Definition strategy_arg_named (c : subscribe_call) : bool :=
  match c with
  | CallSubscribeStrategy v => named v
  | _ => true
  end.

(** The range of Go's [int] on a 64-bit platform. *)
Definition is_int (z : Z) : bool :=
  ((- 2 ^ 63 <=? z) && (z <? 2 ^ 63))%Z.

(** ** Concrete external types, for the examples *)

Definition sample : External :=
  {| Codecer := string;
     Handler := string;
     tls_Config := string;
     KafkaVersion := list N;
     KafkaVersion_zero := [0; 0; 0; 0]%N;
     World := list string |}.

(** A strategy type of a caller whose identity is the empty string. *)
Inductive anonymous : Set := Anonymous.

#[export] Instance anonymous_Strategy : Strategy.impl anonymous :=
  fun _ => "".

(** ** What a sequence of subscribe calls leaves in each field *)

Inductive subscribe_field : Set :=
| SAutoAck | SQueue | SRetryNum | SStrategy | SContext.

(** The field that the closure of a subscribe call assigns. *)
Definition subscribe_assigns (c : subscribe_call) : subscribe_field :=
  match c with
  | CallDisableAutoAck => SAutoAck
  | CallQueue _ => SQueue
  | CallSubscribeContext _ => SContext
  | CallSubscribeRetryNum _ => SRetryNum
  | CallSubscribeStrategy _ => SStrategy
  end.

Definition disables (c : subscribe_call) : bool :=
  match c with
  | CallDisableAutoAck => true
  | _ => false
  end.

(** The argument of the last [Queue] call, the empty name without one. *)
Definition last_queue (cs : list subscribe_call) : string :=
  fold_left
    (fun acc c => match c with CallQueue name => name | _ => acc end)
    cs "".

(** The argument of the last [SubscribeContext] call, nil without one. *)
Definition last_subscribe_context (cs : list subscribe_call) : context.Context :=
  fold_left
    (fun acc c => match c with CallSubscribeContext ctx => ctx | _ => acc end)
    cs None.

(** A subscribe configurator written by a caller that panics. *)
Definition failing (msg : string) : SubscribeOption :=
  fun _ => Panic msg.

(** ** What a context binds *)

(** A value whose comparison with any other value returns: it holds no
    value of a type that cannot be compared, at any depth. *)
Fixpoint safely_comparable (x : any) : bool :=
  match x with
  | Nil | Str _ | Int _ | Bool _ | Float64 _ => true
  | Bytes _ => false
  | Array elems => forallb safely_comparable elems
  end.

(** A key that [context.WithValue] accepts and that can be compared with
    every key looked up later. *)
Definition usable_key (k : any) : bool :=
  accepted_key k && safely_comparable k.

(** A context in which every key is usable. *)
Fixpoint ctx_ok (c : context.Ctx) : bool :=
  match c with
  | context.backgroundCtx => true
  | context.valueCtx parent k _ => usable_key k && ctx_ok parent
  end.

Definition context_ok (c : context.Context) : bool :=
  match c with
  | None => true
  | Some c => ctx_ok c
  end.

Definition context_arg_ok `{External} (c : call) : bool :=
  match c with
  | CallContext ctx => context_ok ctx
  | CallContextWithValue k _ => usable_key k
  | _ => true
  end.

(** What the context carried by a record binds to a key; a nil context
    binds nothing. *)
Definition bound_value `{External} (o : Options.t) (q : any) : result any :=
  match Options.Context o with
  | None => Ok Nil
  | Some c => context.Value c q
  end.

(** [k == q] holds. *)
Definition key_matches (k q : any) : bool :=
  match iface_eq k q with
  | Ok b => b
  | Panic _ => false
  end.

(** The calls [ContextWithValue(k, v)] for a list of pairs. *)
Definition with_values `{External} (kvs : list (any * any)) : list Option :=
  map (fun kv => ContextWithValue (fst kv) (snd kv)) kvs.

(** The arguments of the last [Sasl] call. *)
Definition last_sasl `{External} (cs : list call) : option (string * string * string) :=
  fold_left
    (fun acc c =>
       match c with
       | CallSasl user pass algorithm => Some (user, pass, algorithm)
       | _ => acc
       end)
    cs None.

(** * Properties *)

(** ** Basic facts about sequencing *)

Lemma applyEach_app {T : Type} (xs ys : list (T -> result T)) (o : T) :
  applyEach (xs ++ ys) o = (r <- applyEach xs o ;; applyEach ys r).
Proof.
  revert o; induction xs as [|x xs IH]; intros o; simpl; [reflexivity|].
  destruct (x o) as [o'|msg]; simpl; [apply IH | reflexivity].
Qed.

Lemma applyEach_snoc {T : Type} (xs : list (T -> result T)) (x : T -> result T) (o : T) :
  applyEach (xs ++ [x]) o = (r <- applyEach xs o ;; x r).
Proof.
  rewrite applyEach_app. destruct (applyEach xs o) as [r|msg]; simpl; [|reflexivity].
  destruct (x r); reflexivity.
Qed.

(** ** Strategies *)

(** C3: the built-in strategies [StrategyRetry], [StrategyDoOnce] and
    [StrategySendBack] report the identities "retry", "do_once" and
    "send_back", both as values of [strategyImpl] and behind the
    interface, and the three identities are pairwise distinct. *)
Theorem builtin_strategy_identities :
  Strategy.Strategy StrategyRetry = "retry" /\
  Strategy.Strategy StrategyDoOnce = "do_once" /\
  Strategy.Strategy StrategySendBack = "send_back" /\
  option_map Strategy.call (Strategy.box StrategyRetry) = Some "retry" /\
  option_map Strategy.call (Strategy.box StrategyDoOnce) = Some "do_once" /\
  option_map Strategy.call (Strategy.box StrategySendBack) = Some "send_back" /\
  Strategy.Strategy StrategyRetry <> Strategy.Strategy StrategyDoOnce /\
  Strategy.Strategy StrategyRetry <> Strategy.Strategy StrategySendBack /\
  Strategy.Strategy StrategyDoOnce <> Strategy.Strategy StrategySendBack.
Proof.
  repeat split; try reflexivity; intro E; discriminate E.
Qed.

(** ** Subscribe options *)

(** C2: [NewSubscribeOptions] without configurators returns the record
    with AutoAck = true, Queue = "", RetryNum = 0 and Strategy = nil. *)
Theorem NewSubscribeOptions_defaults :
  exists r,
    NewSubscribeOptions [] = Ok r /\
    SubscribeOptions.AutoAck r = true /\
    SubscribeOptions.Queue r = "" /\
    SubscribeOptions.RetryNum r = 0%Z /\
    SubscribeOptions.Strategy r = None.
Proof.
  eexists; split; [reflexivity|]. simpl. repeat split.
Qed.

(** A sequence of exported subscribe configurators always returns; the
    retry count and the strategy of the result are the arguments of the
    last call that sets them. *)
Lemma subscribe_calls_run (cs : list subscribe_call) :
  forall o,
  exists r,
    applyEach (map subscribe_configurator cs) o = Ok r /\
    SubscribeOptions.RetryNum r =
      fold_left
        (fun acc c => match c with CallSubscribeRetryNum v => v | _ => acc end)
        cs (SubscribeOptions.RetryNum o) /\
    SubscribeOptions.Strategy r =
      fold_left
        (fun acc c => match c with CallSubscribeStrategy v => v | _ => acc end)
        cs (SubscribeOptions.Strategy o).
Proof.
  induction cs as [|c cs IH]; intros o.
  - exists o. repeat split.
  - destruct c; simpl;
      match goal with
      | |- context [applyEach _ ?o'] => destruct (IH o') as (r & Hr & Hn & Hs)
      end;
      exists r; repeat split; assumption.
Qed.

Lemma last_retry_nonneg (cs : list subscribe_call) :
  forallb retry_arg_nonneg cs = true ->
  forall init, (0 <= init)%Z ->
  (0 <= fold_left
          (fun acc c => match c with CallSubscribeRetryNum v => v | _ => acc end)
          cs init)%Z.
Proof.
  induction cs as [|c cs IH]; simpl; intros Hall init Hinit; [assumption|].
  apply andb_prop in Hall. destruct Hall as [Hc Hcs].
  apply IH; [assumption|].
  destruct c; simpl in Hc; try assumption.
  apply Z.leb_le; assumption.
Qed.

Lemma last_strategy_named (cs : list subscribe_call) :
  forallb strategy_arg_named cs = true ->
  forall init, named init = true ->
  named (fold_left
           (fun acc c => match c with CallSubscribeStrategy v => v | _ => acc end)
           cs init) = true.
Proof.
  induction cs as [|c cs IH]; simpl; intros Hall init Hinit; [assumption|].
  apply andb_prop in Hall. destruct Hall as [Hc Hcs].
  apply IH; [assumption|].
  destruct c; simpl in Hc; assumption.
Qed.

(** C7, as the code has it: [SubscribeRetryNum] stores its argument
    unchecked.  For every sequence of exported subscribe configurators
    [NewSubscribeOptions] returns a record whose retry count is the
    argument of the last [SubscribeRetryNum], or 0 without one; so the
    retry count is non-negative exactly when that argument is, and in
    particular when no [SubscribeRetryNum] of the sequence was given a
    negative argument. *)
Theorem RetryNum_is_last_argument (cs : list subscribe_call) :
  exists r,
    NewSubscribeOptions (map subscribe_configurator cs) = Ok r /\
    SubscribeOptions.RetryNum r = last_retry cs /\
    ((0 <= SubscribeOptions.RetryNum r)%Z <-> (0 <= last_retry cs)%Z) /\
    (forallb retry_arg_nonneg cs = true ->
     (0 <= SubscribeOptions.RetryNum r)%Z).
Proof.
  unfold NewSubscribeOptions, last_retry.
  match goal with
  | |- context [applyEach _ ?o] =>
      destruct (subscribe_calls_run cs o) as (r & Hr & Hn & _)
  end.
  exists r. split; [exact Hr|]. split; [exact Hn|]. split.
  - rewrite Hn. reflexivity.
  - intros Hall. rewrite Hn. apply last_retry_nonneg; [assumption | simpl; lia].
Qed.

Lemma RetryNum_is_last_argument_witness :
  (exists r,
     NewSubscribeOptions
       [SubscribeRetryNum 3; Queue "orders"; SubscribeRetryNum (-2)] = Ok r /\
     SubscribeOptions.RetryNum r = (-2)%Z /\
     ~ (0 <= SubscribeOptions.RetryNum r)%Z) /\
  (exists r,
     NewSubscribeOptions
       [Queue "orders"; SubscribeRetryNum 3; DisableAutoAck] = Ok r /\
     SubscribeOptions.RetryNum r = 3%Z /\
     (0 <= SubscribeOptions.RetryNum r)%Z).
Proof.
  split.
  - destruct (RetryNum_is_last_argument
                [CallSubscribeRetryNum 3; CallQueue "orders";
                 CallSubscribeRetryNum (-2)])
      as (r & Hr & Hn & Hiff & _).
    exists r. split; [exact Hr|]. split; [exact Hn|].
    intros Hnonneg. apply Hiff in Hnonneg.
    change (0 <= -2)%Z in Hnonneg. lia.
  - destruct (RetryNum_is_last_argument
                [CallQueue "orders"; CallSubscribeRetryNum 3;
                 CallDisableAutoAck])
      as (r & Hr & Hn & _ & Hnonneg).
    exists r. split; [exact Hr|]. split; [exact Hn|].
    exact (Hnonneg eq_refl).
Defined.

(** C7 as stated fails: -1 is a Go [int], [SubscribeRetryNum(-1)] is a
    subscribe configurator, and the record built from it has a negative
    retry count. *)
Lemma RetryNum_negative :
  is_int (-1) = true /\
  exists r,
    NewSubscribeOptions [SubscribeRetryNum (-1)] = Ok r /\
    ~ (0 <= SubscribeOptions.RetryNum r)%Z.
Proof.
  split; [reflexivity|].
  eexists; split; [reflexivity|]. simpl. lia.
Qed.

(** C9, as the code has it: [SubscribeStrategy] stores its argument
    unchecked.  For every sequence of exported subscribe configurators
    [NewSubscribeOptions] returns a record whose strategy is the argument
    of the last [SubscribeStrategy], or nil without one; so a strategy
    that is not nil has a non-empty identity exactly when that argument
    has one, and in particular when every [SubscribeStrategy] of the
    sequence was given nil or a strategy with a non-empty identity, as
    the three built-in ones are. *)
Theorem Strategy_is_last_argument (cs : list subscribe_call) :
  exists r,
    NewSubscribeOptions (map subscribe_configurator cs) = Ok r /\
    SubscribeOptions.Strategy r = last_strategy cs /\
    named (SubscribeOptions.Strategy r) = named (last_strategy cs) /\
    (forallb strategy_arg_named cs = true ->
     forall d, SubscribeOptions.Strategy r = Some d -> Strategy.call d <> "").
Proof.
  unfold NewSubscribeOptions, last_strategy.
  match goal with
  | |- context [applyEach _ ?o] =>
      destruct (subscribe_calls_run cs o) as (r & Hr & _ & Hs)
  end.
  exists r. split; [exact Hr|]. split; [exact Hs|]. split.
  - rewrite Hs. reflexivity.
  - intros Hall d Hd.
    pose proof (last_strategy_named cs Hall None eq_refl) as Hnamed.
    simpl in Hs. rewrite <- Hs, Hd in Hnamed. simpl in Hnamed.
    intro E. rewrite E in Hnamed. discriminate Hnamed.
Qed.

Lemma Strategy_is_last_argument_witness :
  (exists r,
     NewSubscribeOptions
       [SubscribeStrategy (Strategy.box StrategyRetry); Queue "orders";
        SubscribeStrategy (Strategy.box Anonymous)] = Ok r /\
     SubscribeOptions.Strategy r = Strategy.box Anonymous /\
     named (SubscribeOptions.Strategy r) = false) /\
  (exists r,
     NewSubscribeOptions
       [Queue "orders"; SubscribeRetryNum 3;
        SubscribeStrategy (Strategy.box StrategyRetry)] = Ok r /\
     SubscribeOptions.Strategy r = Strategy.box StrategyRetry /\
     forall d, SubscribeOptions.Strategy r = Some d -> Strategy.call d <> "").
Proof.
  split.
  - destruct (Strategy_is_last_argument
                [CallSubscribeStrategy (Strategy.box StrategyRetry);
                 CallQueue "orders";
                 CallSubscribeStrategy (Strategy.box Anonymous)])
      as (r & Hr & Hs & Hnamed & _).
    exists r. split; [exact Hr|]. split; [exact Hs | exact Hnamed].
  - destruct (Strategy_is_last_argument
                [CallQueue "orders"; CallSubscribeRetryNum 3;
                 CallSubscribeStrategy (Strategy.box StrategyRetry)])
      as (r & Hr & Hs & _ & Hall).
    exists r. split; [exact Hr|]. split; [exact Hs|].
    exact (Hall eq_refl).
Defined.

(** C9 as stated fails: a caller's strategy type whose [Strategy()]
    returns the empty string is accepted by [SubscribeStrategy], and the
    record built from it has a non-nil strategy with an empty identity. *)
Lemma Strategy_with_empty_identity :
  exists r d,
    NewSubscribeOptions [SubscribeStrategy (Strategy.box Anonymous)] = Ok r /\
    SubscribeOptions.Strategy r = Some d /\
    Strategy.call d = "".
Proof.
  do 2 eexists. split; [reflexivity|]. split; reflexivity.
Qed.

(** ** Connection options *)

Section Connection.

Context `{External}.

Lemma bind_Ok (m : result Options.t) : (r <- m ;; Ok r) = m.
Proof. destruct m; reflexivity. Qed.

Lemma applyOptions_one (c : Option) (o : Options.t) :
  applyOptions [c] o = c o.
Proof. unfold applyOptions; simpl. apply bind_Ok. Qed.

Lemma applyOptions_two (c1 c2 : Option) (o : Options.t) :
  applyOptions [c1; c2] o = (r <- c1 o ;; c2 r).
Proof.
  unfold applyOptions; simpl. destruct (c1 o) as [r|msg]; simpl; [|reflexivity].
  apply bind_Ok.
Qed.

Lemma applyOptions_app (xs ys : list Option) (o : Options.t) :
  applyOptions (xs ++ ys) o = (r <- applyOptions xs o ;; applyOptions ys r).
Proof. exact (applyEach_app xs ys o). Qed.

Lemma field_eq_refl (f : field) (o : Options.t) : field_eq f o o.
Proof. destruct f; reflexivity. Qed.

Lemma field_eq_trans (f : field) (o1 o2 o3 : Options.t) :
  field_eq f o1 o2 -> field_eq f o2 o3 -> field_eq f o1 o3.
Proof. destruct f; simpl; intros E1 E2; congruence. Qed.

Lemma field_eq_sym (f : field) (o1 o2 : Options.t) :
  field_eq f o1 o2 -> field_eq f o2 o1.
Proof. destruct f; simpl; intros E; congruence. Qed.

(** Case analysis on what a closure does with the record. *)
Ltac run_closure :=
  unfold configurator, Addresses, Sasl, Version, Secure, Codec, ErrorHandler,
    SetTLSConfig, Context, ContextWithValue, Log, Otel, context.WithValue,
    context.Background, Options.set_Addresses, Options.set_Version,
    Options.set_Secure, Options.set_Codec, Options.set_Username,
    Options.set_Password, Options.set_Algorithm, Options.set_ErrorHandler,
    Options.set_TLSConfig, Options.set_Context, Options.set_Log,
    Options.set_Otel in *;
  repeat (simpl in *;
    match goal with
    | l : option Logger |- _ => destruct l
    | E : @Some context.Ctx _ = Some _ |- _ => injection E as E; subst
    | E : @None context.Ctx = Some _ |- _ => discriminate E
    | E : @Some context.Ctx _ = None |- _ => discriminate E
    | E : Options.Context ?o = _ |- context [Options.Context ?o] => rewrite E
    | E : Options.Context ?o = _, H : context [Options.Context ?o] |- _ =>
        rewrite E in H
    | |- context [match Options.Context ?o with _ => _ end] =>
        destruct (Options.Context o) eqn:?
    | _ : context [match Options.Context ?o with _ => _ end] |- _ =>
        destruct (Options.Context o) eqn:?
    | |- context [match TypeOf ?k with _ => _ end] => destruct (TypeOf k)
    | _ : context [match TypeOf ?k with _ => _ end] |- _ => destruct (TypeOf k)
    | |- context [if Comparable ?t then _ else _] => destruct (Comparable t)
    | _ : context [if Comparable ?t then _ else _] |- _ => destruct (Comparable t)
    end);
  simpl in *.

(** A closure leaves alone the fields it does not assign. *)
Lemma configurator_frame (c : call) (o r : Options.t) :
  configurator c o = Ok r -> same_outside (assigns c) o r.
Proof.
  intros Hrun f Hf.
  destruct c; run_closure; try discriminate Hrun;
    injection Hrun as <-; destruct f; simpl in *;
    try reflexivity; try discriminate Hf; try assumption.
Qed.

(** A closure that does not read the record assigns the same values to
    its fields on every record. *)
Lemma configurator_assigned (c : call) (f : field) (o1 o2 r1 r2 : Options.t) :
  reads_record c = false ->
  mentions (assigns c) f = true ->
  configurator c o1 = Ok r1 ->
  configurator c o2 = Ok r2 ->
  field_eq f r1 r2.
Proof.
  intros Hread Hf H1 H2.
  destruct c; try discriminate Hread; run_closure;
    injection H1 as <-; injection H2 as <-; destruct f; simpl in *;
    try reflexivity; discriminate Hf.
Qed.

Lemma configurator_returns (c : call) (o : Options.t) :
  returns c = true -> exists r, configurator c o = Ok r.
Proof.
  intros Hret. destruct c; simpl in *; try (eexists; reflexivity).
  - unfold accepted_key in Hret. unfold ContextWithValue, context.WithValue.
    destruct (Options.Context o) eqn:E; simpl; rewrite ?E;
      destruct (TypeOf k); try discriminate Hret; rewrite Hret;
      eexists; reflexivity.
  - destruct log; eexists; reflexivity.
Qed.

(** C5: [Log] with a nil logger returns the record it was given; in
    particular a logger set by an earlier [Log] is still there after a
    [Log(nil)]. *)
Theorem Log_nil_is_noop (o : Options.t) :
  Log None o = Ok o /\
  forall l : Logger,
  exists o1 o2,
    Log (Some l) o = Ok o1 /\
    Log None o1 = Ok o2 /\
    Options.Log o2 = Some l.
Proof.
  split; [reflexivity|].
  intros l. do 2 eexists. repeat split.
Qed.

(** C6: [SetTLSConfig] assigns the TLSConfig field and nothing else, so
    the Secure flag stays as it was; [Secure] assigns the Secure flag and
    nothing else, so the TLSConfig field stays as it was. *)
Theorem TLSConfig_and_Secure_independent
  (o : Options.t) (t : option tls_Config) (b : bool) :
  (exists o',
     SetTLSConfig t o = Ok o' /\
     Options.TLSConfig o' = t /\
     Options.Secure o' = Options.Secure o /\
     same_outside [FTLSConfig] o o') /\
  (exists o',
     Secure b o = Ok o' /\
     Options.Secure o' = b /\
     Options.TLSConfig o' = Options.TLSConfig o /\
     same_outside [FSecure] o o').
Proof.
  split; eexists; (split; [reflexivity|]); simpl; repeat split;
    intros f Hf; destruct f; simpl in *; try reflexivity; discriminate Hf.
Qed.

(** C10: [Context], [SetTLSConfig], [ErrorHandler] and [Codec] have no
    nil guard: called with nil, each sets its field to nil on every
    record, whatever the field held, and leaves the other fields. *)
Theorem nil_arguments_clear_fields (o : Options.t) :
  (exists o',
     Context None o = Ok o' /\ Options.Context o' = None /\
     same_outside [FContext] o o') /\
  (exists o',
     SetTLSConfig None o = Ok o' /\ Options.TLSConfig o' = None /\
     same_outside [FTLSConfig] o o') /\
  (exists o',
     ErrorHandler None o = Ok o' /\ Options.ErrorHandler o' = None /\
     same_outside [FErrorHandler] o o') /\
  (exists o',
     Codec None o = Ok o' /\ Options.Codec o' = None /\
     same_outside [FCodec] o o').
Proof.
  repeat split; eexists; (split; [reflexivity|]); simpl; (split; [reflexivity|]);
    intros f Hf; destruct f; simpl in *; try reflexivity; discriminate Hf.
Qed.

(** C4, as the code has it: on a record whose Context is nil,
    [ContextWithValue(k, v)] with a key that is not nil, of a comparable
    type and equal to itself returns a record whose Context is the
    binding of [k] to [v] on top of the empty background context; the
    lookup of [k] in it returns [v], and no other field changes. *)
Theorem ContextWithValue_on_nil_context (o : Options.t) (k v : any) :
  Options.Context o = None ->
  accepted_key k = true ->
  iface_eq k k = Ok true ->
  exists o',
    ContextWithValue k v o = Ok o' /\
    context.WithValue context.Background k v = Ok (Options.Context o') /\
    Options.lookup o' k = Ok v /\
    same_outside [FContext] o o'.
Proof.
  intros Hnil Hkey Hrefl.
  unfold ContextWithValue, context.WithValue. rewrite Hnil. simpl.
  unfold accepted_key in Hkey.
  destruct (TypeOf k) as [t|]; [rewrite Hkey | discriminate Hkey].
  eexists. split; [reflexivity|]. simpl. split; [reflexivity|]. split.
  - unfold Options.lookup. simpl. rewrite Hrefl. reflexivity.
  - intros f Hf; destruct f; simpl in *; try reflexivity; discriminate Hf.
Qed.

(** *** Sequences of connection configurators *)

Lemma configurators_commute (c1 c2 : call) (o : Options.t) :
  disjoint (assigns c1) (assigns c2) = true ->
  (r <- configurator c1 o ;; configurator c2 r) =
  (r <- configurator c2 o ;; configurator c1 r).
Proof.
  intros Hdis.
  destruct c1, c2; run_closure; try discriminate Hdis; reflexivity.
Qed.

Lemma later_overwrites (c1 c2 : call) (o : Options.t) :
  assigns c1 = assigns c2 ->
  returns c1 = true ->
  reads_record c2 = false ->
  (r <- configurator c1 o ;; configurator c2 r) = configurator c2 o.
Proof.
  intros Hsame Hret Hread.
  destruct c1, c2; try discriminate Hread;
    unfold returns, accepted_key in Hret; run_closure;
    try discriminate Hsame; try discriminate Hret; reflexivity.
Qed.

Lemma last_write_snoc (f : field) (cs : list call) (c : call) :
  last_write f (cs ++ [c]) =
  if mentions (assigns c) f then Some c else last_write f cs.
Proof.
  unfold last_write. rewrite rev_app_distr. reflexivity.
Qed.

Lemma sequence_last_write (cs : list call) (o : Options.t) :
  forallb returns cs = true ->
  exists r,
    applyOptions (map configurator cs) o = Ok r /\
    forall f,
      match last_write f cs with
      | None => field_eq f r o
      | Some c =>
          reads_record c = false ->
          forall o', exists r', configurator c o' = Ok r' /\ field_eq f r r'
      end.
Proof.
  induction cs as [|c cs IH] using rev_ind; intros Hret.
  - exists o. split; [reflexivity|]. intros f. apply field_eq_refl.
  - rewrite forallb_app in Hret. apply andb_prop in Hret.
    destruct Hret as [Hcs Hc]. simpl in Hc. rewrite andb_true_r in Hc.
    destruct (IH Hcs) as (r0 & Hr0 & Hfields).
    destruct (configurator_returns c r0 Hc) as [r Hr].
    exists r. split.
    + rewrite map_app, applyOptions_app, Hr0. simpl.
      rewrite applyOptions_one. exact Hr.
    + intros f. rewrite last_write_snoc.
      destruct (mentions (assigns c) f) eqn:Hf.
      * intros Hread o'.
        destruct (configurator_returns c o' Hc) as [r' Hr'].
        exists r'. split; [exact Hr'|].
        exact (configurator_assigned c f r0 o' r r' Hread Hf Hr Hr').
      * pose proof (configurator_frame c r0 r Hr f Hf) as Hkeep.
        apply field_eq_sym in Hkeep.
        specialize (Hfields f).
        destruct (last_write f cs) as [c'|].
        -- intros Hread o'. destruct (Hfields Hread o') as (r' & Hr' & Heq).
           exists r'. split; [exact Hr'|].
           exact (field_eq_trans f r r0 r' Hkeep Heq).
        -- exact (field_eq_trans f r r0 o Hkeep Hfields).
Qed.

Lemma ContextWithValue_lookup (k v : any) (o r : Options.t) :
  ContextWithValue k v o = Ok r ->
  iface_eq k k = Ok true ->
  Options.lookup r k = Ok v.
Proof.
  intros Hrun Hrefl.
  run_closure; try discriminate Hrun; injection Hrun as <-;
    unfold Options.lookup; simpl; rewrite Hrefl; reflexivity.
Qed.

(** C1, as the code has it.  For calls of the exported connection
    configurators: (1) two calls that assign disjoint fields commute;
    (2) of two calls that assign the same fields, the later one alone
    determines the result when its closure does not read the record,
    which is every configurator but [ContextWithValue]; (3) after a
    sequence of calls, a field that no call assigns keeps its initial value
    and a field whose last assigning call does not read the record holds
    what that call assigns on any record; (4) [ContextWithValue(k, v)]
    as the last call extends the context built so far, and the lookup of
    [k] in the result returns [v]. *)
Theorem configurators_last_write_wins :
  (forall (c1 c2 : call) (o : Options.t),
     disjoint (assigns c1) (assigns c2) = true ->
     applyOptions [configurator c1; configurator c2] o =
     applyOptions [configurator c2; configurator c1] o) /\
  (forall (c1 c2 : call) (o : Options.t),
     assigns c1 = assigns c2 ->
     returns c1 = true ->
     reads_record c2 = false ->
     applyOptions [configurator c1; configurator c2] o =
     applyOptions [configurator c2] o) /\
  (forall (cs : list call) (o : Options.t),
     forallb returns cs = true ->
     exists r,
       applyOptions (map configurator cs) o = Ok r /\
       forall f,
         match last_write f cs with
         | None => field_eq f r o
         | Some c =>
             reads_record c = false ->
             forall o', exists r', configurator c o' = Ok r' /\ field_eq f r r'
         end) /\
  (forall (cs : list call) (k v : any) (o r : Options.t),
     applyOptions (map configurator (cs ++ [CallContextWithValue k v])) o = Ok r ->
     iface_eq k k = Ok true ->
     (exists r0 c0,
        applyOptions (map configurator cs) o = Ok r0 /\
        Options.Context r = Some (context.valueCtx c0 k v) /\
        (Options.Context r0 = None /\ c0 = context.backgroundCtx \/
         Options.Context r0 = Some c0)) /\
     Options.lookup r k = Ok v).
Proof.
  split; [|split; [|split]].
  - intros c1 c2 o Hdis. rewrite !applyOptions_two.
    apply configurators_commute. exact Hdis.
  - intros c1 c2 o Hsame Hret Hread.
    rewrite applyOptions_two, applyOptions_one.
    apply later_overwrites; assumption.
  - intros cs o Hret. apply sequence_last_write. exact Hret.
  - intros cs k v o r Hrun Hrefl.
    rewrite map_app, applyOptions_app in Hrun.
    destruct (applyOptions (map configurator cs) o) as [r0|msg];
      simpl in Hrun; [|discriminate Hrun].
    rewrite applyOptions_one in Hrun. split.
    + exists r0. clear Hrefl. run_closure; try discriminate Hrun;
        injection Hrun as <-; simpl; eexists; (split; [reflexivity|]);
        (split; [reflexivity|]); [right | left; split]; reflexivity.
    + exact (ContextWithValue_lookup k v r0 r Hrun Hrefl).
Qed.

(** *** The logger of a finished configuration *)

Lemma Log_of_calls (cs : list call) :
  forall o,
    forallb returns cs = true ->
    exists r,
      applyOptions (map configurator cs) o = Ok r /\
      Options.Log r =
        fold_left
          (fun acc c => match c with CallLog (Some l) => Some l | _ => acc end)
          cs (Options.Log o).
Proof.
  induction cs as [|c cs IH]; intros o Hret.
  - exists o. split; reflexivity.
  - simpl in Hret. apply andb_prop in Hret. destruct Hret as [Hc Hcs].
    destruct (configurator_returns c o Hc) as [r1 Hr1].
    destruct (IH r1 Hcs) as (r & Hr & Hlog).
    exists r. split.
    + change (map configurator (c :: cs))
        with ([configurator c] ++ map configurator cs)%list.
      rewrite applyOptions_app, applyOptions_one, Hr1. exact Hr.
    + rewrite Hlog. simpl. f_equal.
      destruct c as [ | | | | | | | | |[l|]| ];
        try (symmetry; exact (configurator_frame _ o r1 Hr1 FLog eq_refl));
        simpl in Hr1; injection Hr1 as <-; reflexivity.
Qed.

Lemma no_logger_supplied (cs : list call) (init : option Logger) :
  existsb supplies_logger cs = false ->
  fold_left
    (fun acc c => match c with CallLog (Some l) => Some l | _ => acc end)
    cs init = init.
Proof.
  revert init. induction cs as [|c cs IH]; intros init Hnone; [reflexivity|].
  simpl in Hnone. apply orb_false_elim in Hnone. destruct Hnone as [Hc Hcs].
  simpl. rewrite (IH _ Hcs).
  destruct c as [ | | | | | | | | |[l|]| ]; try reflexivity. discriminate Hc.
Qed.

(** C8: in the configuration finished by the builder of the
    specification, with no logger supplied, that is when no [Log] of the
    sequence is given a logger that is not nil, the Log field is the
    no-op logger and not nil, whose methods do nothing: no configurator
    of options.go takes the default away.  In general the Log field of
    the finished configuration is the last logger supplied, or else the
    no-op logger. *)
Theorem NewOptions_Log_falls_back (cs : list call) :
  forallb returns cs = true ->
  existsb supplies_logger cs = false ->
  exists r,
    NewOptions (map configurator cs) = Ok r /\
    Options.Log r = Some noopLogger /\
    Options.Log r <> None /\
    forall (l : Logger) (format : string) (args : list any) (w : World),
      Options.Log r = Some l ->
      Info l args w = w /\ Warn l args w = w /\ Error l args w = w /\
      Errorf l format args w = w /\ Infof l format args w = w.
Proof.
  intros Hret Hnone. unfold NewOptions.
  destruct (Log_of_calls cs defaultOptions Hret) as (r & Hr & Hlog).
  rewrite (no_logger_supplied cs _ Hnone) in Hlog. simpl in Hlog.
  exists r. split; [exact Hr|]. split; [exact Hlog|]. split.
  - rewrite Hlog. intro E. discriminate E.
  - intros l format args w Hl. rewrite Hlog in Hl. injection Hl as <-.
    repeat split.
Qed.

(** *** Reordering connection configurators *)

Lemma field_beq_eq (a b : field) : field_beq a b = true -> a = b.
Proof. destruct a, b; simpl; intros E; try reflexivity; discriminate E. Qed.

Lemma mentions_In (fs : list field) (f : field) :
  mentions fs f = true -> In f fs.
Proof.
  unfold mentions. rewrite existsb_exists. intros (g & Hin & Hg).
  apply field_beq_eq in Hg. subst g. exact Hin.
Qed.

Lemma NoDup_disjoint (fs gs rest : list field) :
  NoDup (fs ++ gs ++ rest) -> disjoint fs gs = true.
Proof.
  induction fs as [|f fs IH]; simpl; intros Hnodup; [reflexivity|].
  inversion Hnodup as [|? ? Hnotin Htail]; subst.
  rewrite (IH Htail), andb_true_r.
  destruct (mentions gs f) eqn:Hf; [|reflexivity].
  exfalso. apply Hnotin. apply in_or_app. right.
  apply in_or_app. left. apply mentions_In. exact Hf.
Qed.

(** X6: the order of the exported connection configurators does not
    matter as long as no field is assigned by two of them: every
    reordering of such a sequence yields the same outcome on every
    record, the same record or the same panic. *)
Theorem connection_order_irrelevant (cs cs' : list call) :
  Permutation cs cs' ->
  NoDup (flat_map assigns cs) ->
  forall o,
    applyOptions (map configurator cs) o =
    applyOptions (map configurator cs') o.
Proof.
  induction 1 as [|c l l' Hperm IH|c1 c2 l|l l' l'' H1 IH1 H2 IH2];
    intros Hnodup o.
  - reflexivity.
  - change (map configurator (c :: l))
      with ([configurator c] ++ map configurator l)%list.
    change (map configurator (c :: l'))
      with ([configurator c] ++ map configurator l')%list.
    rewrite !applyOptions_app.
    destruct (applyOptions [configurator c] o) as [o'|msg]; simpl;
      [|reflexivity].
    apply IH. simpl in Hnodup. exact (NoDup_app_remove_l _ _ Hnodup).
  - change (map configurator (c2 :: c1 :: l))
      with ([configurator c2; configurator c1] ++ map configurator l)%list.
    change (map configurator (c1 :: c2 :: l))
      with ([configurator c1; configurator c2] ++ map configurator l)%list.
    rewrite !applyOptions_app, !applyOptions_two.
    simpl in Hnodup.
    rewrite (configurators_commute c2 c1 o (NoDup_disjoint _ _ _ Hnodup)).
    reflexivity.
  - rewrite IH1 by exact Hnodup. apply IH2.
    exact (Permutation_NoDup (Permutation_flat_map assigns H1) Hnodup).
Qed.

(** *** What the carried context binds *)

Lemma any_nested_ind (P : any -> Prop) :
  P Nil ->
  (forall s, P (Str s)) ->
  (forall z, P (Int z)) ->
  (forall b, P (Bool b)) ->
  (forall f, P (Float64 f)) ->
  (forall l, P (Bytes l)) ->
  (forall elems, Forall P elems -> P (Array elems)) ->
  forall x, P x.
Proof.
  intros HNil HStr HInt HBool HFloat HBytes HArray.
  fix IH 1.
  intros [ |s|z|b|f|l|elems];
    [exact HNil | apply HStr | apply HInt | apply HBool | apply HFloat
    | apply HBytes | ].
  apply HArray. revert elems.
  fix IHelems 1. intros [|x elems]; constructor; [apply IH | apply IHelems].
Qed.

Lemma safely_comparable_returns (k : any) :
  safely_comparable k = true -> forall q, exists b, iface_eq k q = Ok b.
Proof.
  induction k as [ |s|z|b|f|l|elems IH] using any_nested_ind;
    intros Hk q; try discriminate Hk;
    destruct q; simpl; try (eexists; reflexivity).
  destruct (Nat.eqb (length elems) (length elems0)); [|eexists; reflexivity].
  simpl in Hk. clear -IH Hk. revert elems0.
  induction IH as [|x elems Hx _ IHelems]; intros others.
  - eexists; reflexivity.
  - simpl in Hk. apply andb_prop in Hk. destruct Hk as [Hxs Helems].
    destruct others as [|y others]; [eexists; reflexivity|].
    destruct (Hx Hxs y) as [same Hsame]. rewrite Hsame. simpl.
    destruct same; [apply IHelems; exact Helems | eexists; reflexivity].
Qed.

Lemma usable_key_eq (k q : any) :
  usable_key k = true -> iface_eq k q = Ok (key_matches k q).
Proof.
  unfold usable_key, key_matches. intros Hk.
  apply andb_prop in Hk. destruct Hk as [_ Hsafe].
  destruct (safely_comparable_returns k Hsafe q) as [b Hb].
  rewrite Hb. reflexivity.
Qed.

Lemma ContextWithValue_accepts (k v : any) (o r : Options.t) :
  ContextWithValue k v o = Ok r -> accepted_key k = true.
Proof.
  unfold accepted_key. intros Hrun.
  run_closure; try discriminate Hrun; reflexivity.
Qed.

Lemma ContextWithValue_lookup_step (k v q : any) (o r : Options.t) :
  ContextWithValue k v o = Ok r ->
  Options.lookup r q =
  (same <- iface_eq k q ;; if same then Ok v else bound_value o q).
Proof.
  intros Hrun. unfold bound_value.
  run_closure; try discriminate Hrun; injection Hrun as <-;
    unfold Options.lookup; simpl; reflexivity.
Qed.

(** X7: [ContextWithValue(k, v)] adds one binding and hides none but
    those of [k]: in the record it returns, a key that differs from [k]
    is bound to what the context of the record given bound it to, and to
    nothing when that record carried no context. *)
Theorem ContextWithValue_keeps_other_keys (k v q : any) (o r : Options.t) :
  ContextWithValue k v o = Ok r ->
  iface_eq k q = Ok false ->
  Options.lookup r q = bound_value o q.
Proof.
  intros Hrun Hdiff.
  rewrite (ContextWithValue_lookup_step k v q o r Hrun), Hdiff. reflexivity.
Qed.

Lemma with_values_run (kvs : list (any * any)) (o : Options.t) :
  forallb (fun kv => usable_key (fst kv)) kvs = true ->
  exists r,
    applyOptions (with_values kvs) o = Ok r /\
    (kvs <> [] -> Options.Context r <> None) /\
    forall q,
      bound_value r q =
      match find (fun kv => key_matches (fst kv) q) (rev kvs) with
      | Some kv => Ok (snd kv)
      | None => bound_value o q
      end.
Proof.
  induction kvs as [|[k v] kvs IH] using rev_ind; intros Hkeys.
  - exists o. split; [reflexivity|]. split; [intros E; contradiction|].
    reflexivity.
  - rewrite forallb_app in Hkeys. apply andb_prop in Hkeys.
    destruct Hkeys as [Hkvs Hk]. simpl in Hk. rewrite andb_true_r in Hk.
    destruct (IH Hkvs) as (r0 & Hr0 & _ & Hbound).
    assert (Haccepted : accepted_key k = true).
    { unfold usable_key in Hk. apply andb_prop in Hk. exact (proj1 Hk). }
    destruct (configurator_returns (CallContextWithValue k v) r0 Haccepted)
      as [r Hr]. simpl in Hr.
    assert (Hctx : Options.Context r <> None).
    { clear Hbound Hr0. run_closure; try discriminate Hr;
        injection Hr as <-; simpl; intro E; discriminate E. }
    exists r. split; [|split].
    + unfold with_values. rewrite map_app, applyOptions_app.
      fold (with_values kvs). rewrite Hr0. simpl.
      rewrite applyOptions_one. exact Hr.
    + intros _. exact Hctx.
    + intros q. rewrite rev_app_distr. simpl.
      pose proof (ContextWithValue_lookup_step k v q r0 r Hr) as Hstep.
      rewrite (usable_key_eq k q Hk) in Hstep. simpl in Hstep.
      unfold Options.lookup in Hstep. unfold bound_value at 1.
      destruct (Options.Context r) as [c|]; [|contradiction Hctx; reflexivity].
      rewrite Hstep. destruct (key_matches k q); [reflexivity|].
      apply Hbound.
Qed.

(** X8: a run of [ContextWithValue] configurators behaves as a map with
    the later binding winning key by key: when every key is one that
    [context.WithValue] accepts and that holds no value of a type that
    cannot be compared, so that its comparison with any key returns, the
    run returns, and the lookup of
    a key in the result gives the value of the last pair whose key
    equals it and, without such a pair, what the context of the starting
    record bound it to. *)
Theorem with_values_lookup
  (kv : any * any) (kvs : list (any * any)) (o : Options.t) :
  forallb (fun kv => usable_key (fst kv)) (kv :: kvs) = true ->
  exists r,
    applyOptions (with_values (kv :: kvs)) o = Ok r /\
    forall q,
      Options.lookup r q =
      match find (fun kv => key_matches (fst kv) q) (rev (kv :: kvs)) with
      | Some kv => Ok (snd kv)
      | None => bound_value o q
      end.
Proof.
  intros Hkeys.
  destruct (with_values_run (kv :: kvs) o Hkeys) as (r & Hr & Hctx & Hbound).
  exists r. split; [exact Hr|]. intros q.
  rewrite <- Hbound. unfold Options.lookup, bound_value.
  destruct (Options.Context r) as [c|]; [reflexivity|].
  exfalso. apply Hctx; [intro E; discriminate E | reflexivity].
Qed.

Lemma Value_returns (c : context.Ctx) :
  ctx_ok c = true -> forall q, exists v, context.Value c q = Ok v.
Proof.
  induction c as [|parent IH k v]; simpl; intros Hok q.
  - exists Nil. reflexivity.
  - apply andb_prop in Hok. destruct Hok as [Hk Hparent].
    rewrite (usable_key_eq k q Hk). simpl.
    destruct (key_matches k q); [exists v; reflexivity | apply IH; exact Hparent].
Qed.

Lemma configurator_context_ok (c : call) (o r : Options.t) :
  context_arg_ok c = true ->
  context_ok (Options.Context o) = true ->
  configurator c o = Ok r ->
  context_ok (Options.Context r) = true.
Proof.
  intros Harg Hctx Hrun.
  destruct c;
    try (rewrite <- (configurator_frame _ o r Hrun FContext eq_refl);
         exact Hctx).
  - simpl in Hrun. injection Hrun as <-. exact Harg.
  - pose proof (ContextWithValue_accepts k v o r Hrun) as Hk.
    pose proof Hk as Hk'. unfold accepted_key in Hk'.
    simpl in Hrun. unfold ContextWithValue, context.WithValue in Hrun.
    unfold context_ok in Hctx.
    destruct (Options.Context o) as [c0|] eqn:E; simpl in Hrun;
      rewrite ?E in Hrun;
      (destruct (TypeOf k) as [t|]; [|discriminate Hk']);
      rewrite Hk' in Hrun; injection Hrun as <-; simpl in Harg |- *;
      rewrite Harg; [exact Hctx | reflexivity].
  - destruct log; simpl in Hrun; injection Hrun as <-; exact Hctx.
Qed.

Lemma calls_keep_context_ok (cs : list call) :
  forall o,
    forallb returns cs = true ->
    forallb context_arg_ok cs = true ->
    context_ok (Options.Context o) = true ->
    exists r,
      applyOptions (map configurator cs) o = Ok r /\
      context_ok (Options.Context r) = true.
Proof.
  induction cs as [|c cs IH]; intros o Hret Hargs Hctx.
  - exists o. split; [reflexivity | exact Hctx].
  - simpl in Hret, Hargs.
    apply andb_prop in Hret. destruct Hret as [Hc Hcs].
    apply andb_prop in Hargs. destruct Hargs as [Harg Hargs].
    destruct (configurator_returns c o Hc) as [r1 Hr1].
    pose proof (configurator_context_ok c o r1 Harg Hctx Hr1) as Hctx1.
    destruct (IH r1 Hcs Hargs Hctx1) as (r & Hr & Hok).
    exists r. split; [|exact Hok].
    change (map configurator (c :: cs))
      with ([configurator c] ++ map configurator cs)%list.
    rewrite applyOptions_app, applyOptions_one, Hr1. exact Hr.
Qed.

(** X9: a lookup in the context carried by a record does not panic as
    long as every key bound in it is usable, one that
    [context.WithValue] accepts and that holds no value of a type that
    cannot be compared, and the configurators keep it so: starting from a record whose context is
    nil or has usable keys only, after any sequence of exported
    connection configurators that return, with [ContextWithValue] given
    usable keys and [Context] given nil or contexts with usable keys,
    the keys of the result context are usable and, when that context is
    not nil, the lookup of every key in it returns. *)
Theorem context_lookup_returns (cs : list call) :
  forall o,
    forallb returns cs = true ->
    forallb context_arg_ok cs = true ->
    context_ok (Options.Context o) = true ->
    exists r,
      applyOptions (map configurator cs) o = Ok r /\
      context_ok (Options.Context r) = true /\
      forall q,
        Options.Context r <> None -> exists v, Options.lookup r q = Ok v.
Proof.
  intros o Hret Hargs Hctx.
  destruct (calls_keep_context_ok cs o Hret Hargs Hctx) as (r & Hr & Hok).
  exists r. split; [exact Hr|]. split; [exact Hok|].
  intros q Hnonnil. unfold Options.lookup. unfold context_ok in Hok.
  destruct (Options.Context r) as [c|];
    [apply Value_returns; exact Hok | contradiction Hnonnil; reflexivity].
Qed.

(** *** Credentials and logger across a sequence *)

Lemma last_sasl_snoc (cs : list call) (c : call) :
  last_sasl (cs ++ [c]) =
  match c with
  | CallSasl user pass algorithm => Some (user, pass, algorithm)
  | _ => last_sasl cs
  end.
Proof. unfold last_sasl. rewrite fold_left_app. reflexivity. Qed.

(** X10: the three SASL fields always come from one [Sasl] call: after
    any sequence of exported connection configurators that return,
    Username, Password and Algorithm are together the arguments of the
    last [Sasl] in the sequence, or all three as in the starting record
    when the sequence has no [Sasl]. *)
Theorem Sasl_fields_from_one_call (cs : list call) (o : Options.t) :
  forallb returns cs = true ->
  exists r,
    applyOptions (map configurator cs) o = Ok r /\
    (Options.Username r, Options.Password r, Options.Algorithm r) =
    match last_sasl cs with
    | Some credentials => credentials
    | None => (Options.Username o, Options.Password o, Options.Algorithm o)
    end.
Proof.
  induction cs as [|c cs IH] using rev_ind; intros Hret.
  - exists o. split; reflexivity.
  - rewrite forallb_app in Hret. apply andb_prop in Hret.
    destruct Hret as [Hcs Hc]. simpl in Hc. rewrite andb_true_r in Hc.
    destruct (IH Hcs) as (r0 & Hr0 & Hfields).
    destruct (configurator_returns c r0 Hc) as [r Hr].
    exists r. split.
    + rewrite map_app, applyOptions_app, Hr0. simpl.
      rewrite applyOptions_one. exact Hr.
    + rewrite last_sasl_snoc.
      destruct c;
        try (rewrite <- Hfields;
             rewrite <- (configurator_frame _ r0 r Hr FUsername eq_refl),
                     <- (configurator_frame _ r0 r Hr FPassword eq_refl),
                     <- (configurator_frame _ r0 r Hr FAlgorithm eq_refl);
             reflexivity).
      * simpl in Hr. injection Hr as <-. reflexivity.
      * rewrite <- Hfields. destruct log; simpl in Hr;
          injection Hr as <-; reflexivity.
Qed.

Lemma logger_fold_some (cs : list call) (l : Logger) :
  fold_left
    (fun acc c => match c with CallLog (Some l') => Some l' | _ => acc end)
    cs (Some l) =
  Some match last_logger cs with Some l' => l' | None => l end.
Proof.
  unfold last_logger. revert l.
  induction cs as [|c cs IH]; intros l; [reflexivity|].
  destruct c as [ | | | | | | | | |[l2|]| ]; simpl; try apply IH.
  rewrite !IH.
  destruct (fold_left _ cs None); reflexivity.
Qed.

(** X11: no exported connection configurator clears a logger: when the
    starting record has one, the record after any sequence of
    configurators that return has one too, the last non-nil logger given
    to [Log] or else the one it started with. *)
Theorem Log_never_cleared (cs : list call) (o : Options.t) (l : Logger) :
  forallb returns cs = true ->
  Options.Log o = Some l ->
  exists r,
    applyOptions (map configurator cs) o = Ok r /\
    Options.Log r =
    Some match last_logger cs with Some l' => l' | None => l end.
Proof.
  intros Hret Hlog.
  destruct (Log_of_calls cs o Hret) as (r & Hr & Hfold).
  exists r. split; [exact Hr|]. rewrite Hfold, Hlog.
  apply logger_fold_some.
Qed.

(** *** When a sequence panics *)

Lemma ContextWithValue_rejects (k v : any) (o : Options.t) :
  accepted_key k = false ->
  ContextWithValue k v o = Panic "nil key" \/
  ContextWithValue k v o = Panic "key is not comparable".
Proof.
  unfold accepted_key, ContextWithValue, context.WithValue. intros Hk.
  destruct (Options.Context o) as [c|] eqn:E; simpl; rewrite ?E;
    (destruct (TypeOf k) as [t|]; [rewrite Hk; right | left]); reflexivity.
Qed.

(** X12: a sequence of exported connection configurators panics only
    through a [ContextWithValue] whose key [context.WithValue] rejects,
    and then with the message for a nil key or for a key that is not
    comparable; the guard of [ContextWithValue] rules out the panic for
    a nil parent context, whatever record the sequence starts from. *)
Theorem applyOptions_panic_messages (cs : list call) :
  forall o,
    forallb returns cs = false ->
    applyOptions (map configurator cs) o = Panic "nil key" \/
    applyOptions (map configurator cs) o = Panic "key is not comparable".
Proof.
  induction cs as [|c cs IH]; intros o Hret; [discriminate Hret|].
  change (map configurator (c :: cs))
    with ([configurator c] ++ map configurator cs)%list.
  rewrite applyOptions_app, applyOptions_one.
  simpl in Hret. destruct (returns c) eqn:Hc.
  - destruct (configurator_returns c o Hc) as [r1 Hr1]. rewrite Hr1. simpl.
    apply IH. exact Hret.
  - destruct c; try discriminate Hc. simpl in Hc. simpl.
    destruct (ContextWithValue_rejects k v o Hc) as [E|E]; rewrite E;
      [left | right]; reflexivity.
Qed.

End Connection.

(** ** The properties at concrete inputs *)

#[local] Existing Instance sample.

Lemma ContextWithValue_on_nil_context_witness :
  exists o',
    ContextWithValue (Str "trace-id") (Int 7) Options.zero = Ok o' /\
    context.WithValue context.Background (Str "trace-id") (Int 7)
      = Ok (Options.Context o') /\
    Options.lookup o' (Str "trace-id") = Ok (Int 7) /\
    same_outside [FContext] Options.zero o'.
Proof.
  exact (ContextWithValue_on_nil_context
           Options.zero (Str "trace-id") (Int 7) eq_refl eq_refl eq_refl).
Defined.

(** C4 as stated fails for the nil key: on the zero record, whose Context
    is nil, [ContextWithValue(nil, "v")] panics inside
    [context.WithValue], so there is no resulting record to query. *)
Lemma ContextWithValue_nil_key_panics :
  Options.Context Options.zero = None /\
  ContextWithValue Nil (Str "v") Options.zero = Panic "nil key" /\
  ~ (exists o',
       ContextWithValue Nil (Str "v") Options.zero = Ok o' /\
       Options.lookup o' Nil = Ok (Str "v")).
Proof.
  split; [reflexivity|]. split; [reflexivity|].
  intros (o' & Hrun & _). discriminate Hrun.
Qed.

(** A key of a type that cannot be compared panics as well. *)
Example ContextWithValue_slice_key_panics :
  ContextWithValue (Bytes [1; 2]%Z) (Str "v") Options.zero
    = Panic "key is not comparable".
Proof. reflexivity. Qed.

(** A NaN key is accepted, but no lookup finds it again. *)
Example ContextWithValue_nan_key_lost :
  exists o',
    ContextWithValue (Float64 nan) (Str "v") Options.zero = Ok o' /\
    Options.lookup o' (Float64 nan) = Ok Nil.
Proof. eexists. split; reflexivity. Qed.

Lemma configurators_last_write_wins_witness :
  applyOptions [Secure true; SetTLSConfig (Some "pem")] Options.zero =
  applyOptions [SetTLSConfig (Some "pem"); Secure true] Options.zero /\
  applyOptions [Secure false; Secure true] Options.zero =
  applyOptions [Secure true] Options.zero /\
  (exists r,
     applyOptions
       [Addresses ["a:9092"]; Secure true; Addresses ["b:9092"]]
       Options.zero = Ok r /\
     Options.Addresses r = ["b:9092"] /\
     Options.Otel r = Options.Otel Options.zero) /\
  (exists r,
     applyOptions
       [ContextWithValue (Str "a") (Int 1); ContextWithValue (Str "a") (Int 2)]
       Options.zero = Ok r /\
     Options.lookup r (Str "a") = Ok (Int 2)).
Proof.
  destruct (@configurators_last_write_wins sample)
    as (Hcommute & Hlater & Hsequence & Hcontext).
  split.
  { exact (Hcommute (CallSecure true) (CallSetTLSConfig (Some "pem"))
             Options.zero eq_refl). }
  split.
  { exact (Hlater (CallSecure false) (CallSecure true)
             Options.zero eq_refl eq_refl eq_refl). }
  split.
  - destruct (Hsequence
                [CallAddresses ["a:9092"]; CallSecure true;
                 CallAddresses ["b:9092"]]
                Options.zero eq_refl) as (r & Hr & Hfields).
    exists r. split; [exact Hr|]. split.
    + destruct (Hfields FAddresses eq_refl Options.zero) as (r' & Hr' & E).
      injection Hr' as <-. exact E.
    + exact (Hfields FOtel).
  - eexists. split; [reflexivity|].
    exact (proj2 (Hcontext
                    [CallContextWithValue (Str "a") (Int 1)]
                    (Str "a") (Int 2) Options.zero _ eq_refl eq_refl)).
Defined.

(** C1 as stated fails for [ContextWithValue]: two calls of it assign
    the same field, yet the later one does not determine the final
    Context alone.  The binding made by the earlier call is still found
    in the result, which differs from the result of the later call on
    its own. *)
Lemma ContextWithValue_later_call_extends :
  assigns (CallContextWithValue (Str "a") (Int 1)) =
  assigns (CallContextWithValue (Str "b") (Int 2)) /\
  exists both alone,
    applyOptions
      [ContextWithValue (Str "a") (Int 1); ContextWithValue (Str "b") (Int 2)]
      Options.zero = Ok both /\
    applyOptions [ContextWithValue (Str "b") (Int 2)] Options.zero = Ok alone /\
    Options.Context both <> Options.Context alone /\
    Options.lookup both (Str "a") = Ok (Int 1) /\
    Options.lookup alone (Str "a") = Ok Nil.
Proof.
  split; [reflexivity|].
  do 2 eexists. split; [reflexivity|]. split; [reflexivity|].
  split; [|split; reflexivity].
  simpl. intro E. discriminate E.
Qed.

Lemma NewOptions_Log_falls_back_witness :
  exists r,
    NewOptions [Addresses ["broker:9092"]; Log None; Secure true] = Ok r /\
    Options.Log r = Some noopLogger /\
    Options.Log r <> None /\
    forall (l : Logger) (format : string) (args : list any) (w : World),
      Options.Log r = Some l ->
      Info l args w = w /\ Warn l args w = w /\ Error l args w = w /\
      Errorf l format args w = w /\ Infof l format args w = w.
Proof.
  exact (NewOptions_Log_falls_back
           [CallAddresses ["broker:9092"]; CallLog None; CallSecure true]
           eq_refl eq_refl).
Defined.

(** What options.go does on its own: applied to the zero record, its
    configurators leave Log nil when no logger is supplied. *)
Example configurators_leave_Log_nil :
  exists r,
    applyOptions [Addresses ["broker:9092"]; Secure true] Options.zero = Ok r /\
    Options.Log r = None.
Proof. eexists. split; reflexivity. Qed.

(** A key of a comparable type that holds a slice is accepted, but
    looking it up panics. *)
Example ContextWithValue_array_key_panics :
  exists o',
    ContextWithValue (Array [Bytes [1]%Z]) (Str "v") Options.zero = Ok o' /\
    Options.lookup o' (Array [Bytes [1]%Z])
      = Panic "runtime error: comparing uncomparable type []uint8".
Proof. eexists. split; reflexivity. Qed.

(** Scenario 8 of the specification. *)
Example subscribe_orders :
  exists r,
    NewSubscribeOptions
      [Queue "orders"; SubscribeRetryNum 3;
       SubscribeStrategy (Strategy.box StrategyRetry)] = Ok r /\
    SubscribeOptions.AutoAck r = true /\
    SubscribeOptions.Queue r = "orders" /\
    SubscribeOptions.RetryNum r = 3%Z /\
    option_map Strategy.call (SubscribeOptions.Strategy r) = Some "retry".
Proof. eexists. split; [reflexivity|]. repeat split. Qed.

(** Property 3 of the specification. *)
Example DisableAutoAck_only :
  NewSubscribeOptions [DisableAutoAck]
    = Ok (SubscribeOptions.mk false "" 0 None None).
Proof. reflexivity. Qed.

(** * Further properties of the code *)

(** ** Subscribe options, field by field *)

Lemma subscribe_calls_record (cs : list subscribe_call) :
  forall o,
    applyEach (map subscribe_configurator cs) o =
    Ok {| SubscribeOptions.AutoAck :=
            fold_left (fun acc c => if disables c then false else acc)
              cs (SubscribeOptions.AutoAck o);
          SubscribeOptions.Queue :=
            fold_left
              (fun acc c => match c with CallQueue name => name | _ => acc end)
              cs (SubscribeOptions.Queue o);
          SubscribeOptions.RetryNum :=
            fold_left
              (fun acc c =>
                 match c with CallSubscribeRetryNum v => v | _ => acc end)
              cs (SubscribeOptions.RetryNum o);
          SubscribeOptions.Strategy :=
            fold_left
              (fun acc c =>
                 match c with CallSubscribeStrategy v => v | _ => acc end)
              cs (SubscribeOptions.Strategy o);
          SubscribeOptions.Context :=
            fold_left
              (fun acc c =>
                 match c with CallSubscribeContext ctx => ctx | _ => acc end)
              cs (SubscribeOptions.Context o) |}.
Proof.
  induction cs as [|c cs IH]; intros o.
  - destruct o; reflexivity.
  - destruct c; simpl; rewrite IH; reflexivity.
Qed.

Lemma AutoAck_fold (cs : list subscribe_call) (init : bool) :
  fold_left (fun acc c => if disables c then false else acc) cs init =
  init && negb (existsb disables cs).
Proof.
  revert init. induction cs as [|c cs IH]; intros init; simpl.
  - rewrite andb_true_r. reflexivity.
  - rewrite IH. destruct (disables c), init; reflexivity.
Qed.

Lemma disables_In (cs : list subscribe_call) :
  existsb disables cs = true <-> In CallDisableAutoAck cs.
Proof.
  rewrite existsb_exists. split.
  - intros (c & Hin & Hc). destruct c; try discriminate Hc. exact Hin.
  - intros Hin. exists CallDisableAutoAck. split; [exact Hin | reflexivity].
Qed.

(** X1: [NewSubscribeOptions] on a sequence of exported subscribe
    configurators always returns, and its result is known field by
    field: AutoAck is true exactly when [DisableAutoAck] does not occur,
    and Queue, RetryNum, Strategy and Context hold the argument of the
    last call that sets them, or the zero value without such a call. *)
Theorem NewSubscribeOptions_of_calls (cs : list subscribe_call) :
  NewSubscribeOptions (map subscribe_configurator cs) =
  Ok {| SubscribeOptions.AutoAck := negb (existsb disables cs);
        SubscribeOptions.Queue := last_queue cs;
        SubscribeOptions.RetryNum := last_retry cs;
        SubscribeOptions.Strategy := last_strategy cs;
        SubscribeOptions.Context := last_subscribe_context cs |}.
Proof.
  unfold NewSubscribeOptions. rewrite subscribe_calls_record. simpl.
  rewrite AutoAck_fold. reflexivity.
Qed.

(** X2: no exported subscribe configurator turns auto-ack back on:
    whatever comes before and after a [DisableAutoAck], the record
    returned by [NewSubscribeOptions] has AutoAck = false, and then only. *)
Theorem DisableAutoAck_is_final (cs : list subscribe_call) :
  exists r,
    NewSubscribeOptions (map subscribe_configurator cs) = Ok r /\
    (SubscribeOptions.AutoAck r = false <-> In CallDisableAutoAck cs).
Proof.
  unfold NewSubscribeOptions. rewrite subscribe_calls_record.
  eexists. split; [reflexivity|]. simpl. rewrite AutoAck_fold. simpl.
  rewrite <- disables_In. destruct (existsb disables cs); simpl.
  - split; reflexivity.
  - split; intro E; discriminate E.
Qed.

Lemma subscribe_order_irrelevant_from (cs cs' : list subscribe_call) :
  Permutation cs cs' ->
  NoDup (map subscribe_assigns cs) ->
  forall o,
    applyEach (map subscribe_configurator cs) o =
    applyEach (map subscribe_configurator cs') o.
Proof.
  induction 1 as [|c l l' Hperm IH|c1 c2 l|l l' l'' H1 IH1 H2 IH2];
    intros Hnodup o.
  - reflexivity.
  - simpl. inversion Hnodup as [|? ? _ Htail]; subst.
    destruct (subscribe_configurator c o) as [o'|msg]; simpl;
      [apply IH; exact Htail | reflexivity].
  - simpl.
    assert (Hdiff : subscribe_assigns c2 <> subscribe_assigns c1).
    { inversion Hnodup as [|? ? Hnotin _]; subst.
      intro E. apply Hnotin. left. symmetry. exact E. }
    destruct c1, c2; simpl; try reflexivity;
      exfalso; apply Hdiff; reflexivity.
  - rewrite IH1 by exact Hnodup. apply IH2.
    exact (Permutation_NoDup (Permutation_map subscribe_assigns H1) Hnodup).
Qed.

(** X3: the order of the exported subscribe configurators does not matter
    as long as no two of them assign the same field: every reordering of
    such a sequence makes [NewSubscribeOptions] return the same record. *)
Theorem subscribe_order_irrelevant (cs cs' : list subscribe_call) :
  Permutation cs cs' ->
  NoDup (map subscribe_assigns cs) ->
  NewSubscribeOptions (map subscribe_configurator cs) =
  NewSubscribeOptions (map subscribe_configurator cs').
Proof.
  intros Hperm Hnodup. unfold NewSubscribeOptions.
  apply subscribe_order_irrelevant_from; assumption.
Qed.

Lemma subscribe_order_irrelevant_witness :
  NewSubscribeOptions [SubscribeRetryNum 3; Queue "orders"; DisableAutoAck] =
  NewSubscribeOptions [Queue "orders"; SubscribeRetryNum 3; DisableAutoAck].
Proof.
  refine (subscribe_order_irrelevant
            [CallSubscribeRetryNum 3; CallQueue "orders"; CallDisableAutoAck]
            [CallQueue "orders"; CallSubscribeRetryNum 3; CallDisableAutoAck]
            (perm_swap _ _ _) _).
  simpl. repeat constructor; simpl; intuition discriminate.
Defined.

(** X4: [NewSubscribeOptions] stops at the first configurator that
    panics: when the configurators before it return and it panics on the
    record they built, the call panics with its message, whatever
    configurators follow. *)
Theorem NewSubscribeOptions_panics_with
  (before after : list SubscribeOption) (f : SubscribeOption)
  (r : SubscribeOptions.t) (msg : string) :
  NewSubscribeOptions before = Ok r ->
  f r = Panic msg ->
  NewSubscribeOptions (before ++ f :: after) = Panic msg.
Proof.
  unfold NewSubscribeOptions. intros Hbefore Hf.
  refine (eq_trans (applyEach_app before (f :: after) _) _).
  rewrite Hbefore. simpl. rewrite Hf. reflexivity.
Qed.

Lemma NewSubscribeOptions_panics_with_witness :
  NewSubscribeOptions
    ([Queue "orders"] ++ failing "no broker" :: [SubscribeRetryNum 3])
    = Panic "no broker".
Proof.
  exact (NewSubscribeOptions_panics_with
           [Queue "orders"] [SubscribeRetryNum 3] (failing "no broker")
           _ "no broker" eq_refl eq_refl).
Defined.

(** ** Publish options *)

(** X5: [PublishContext] replaces the context whatever the record held,
    nil included, so after any non-empty run of [PublishContext]
    configurators the record carries the context given last. *)
Theorem PublishContext_last_wins
  (ctxs : list context.Context) (ctx : context.Context) (o : PublishOptions.t) :
  applyEach (map PublishContext (ctxs ++ [ctx])) o =
  Ok {| PublishOptions.Context := ctx |}.
Proof.
  revert o. induction ctxs as [|c ctxs IH]; intros o; simpl.
  - reflexivity.
  - apply IH.
Qed.

(** ** The further connection properties at concrete inputs *)

Lemma connection_order_irrelevant_witness :
  applyOptions
    [Secure true; Addresses ["broker:9092"]; ContextWithValue (Str "k") (Int 1)]
    Options.zero =
  applyOptions
    [Addresses ["broker:9092"]; Secure true; ContextWithValue (Str "k") (Int 1)]
    Options.zero.
Proof.
  refine (connection_order_irrelevant
            [CallSecure true; CallAddresses ["broker:9092"];
             CallContextWithValue (Str "k") (Int 1)]
            [CallAddresses ["broker:9092"]; CallSecure true;
             CallContextWithValue (Str "k") (Int 1)]
            (perm_swap _ _ _) _ Options.zero).
  simpl. repeat constructor; simpl; intuition discriminate.
Defined.

Lemma ContextWithValue_keeps_other_keys_witness :
  exists o r,
    ContextWithValue (Str "b") (Int 2) Options.zero = Ok o /\
    ContextWithValue (Str "a") (Int 1) o = Ok r /\
    Options.lookup r (Str "b") = bound_value o (Str "b") /\
    bound_value o (Str "b") = Ok (Int 2).
Proof.
  do 2 eexists. split; [reflexivity|]. split; [reflexivity|].
  split; [|reflexivity].
  apply (ContextWithValue_keeps_other_keys (Str "a") (Int 1) (Str "b"));
    reflexivity.
Defined.

Lemma with_values_lookup_witness :
  exists r,
    applyOptions
      (with_values [(Str "a", Int 1); (Str "b", Int 2); (Str "a", Int 3)])
      Options.zero = Ok r /\
    forall q,
      Options.lookup r q =
      match
        find (fun kv => key_matches (fst kv) q)
          (rev [(Str "a", Int 1); (Str "b", Int 2); (Str "a", Int 3)])
      with
      | Some kv => Ok (snd kv)
      | None => bound_value Options.zero q
      end.
Proof.
  exact (with_values_lookup
           (Str "a", Int 1) [(Str "b", Int 2); (Str "a", Int 3)]
           Options.zero eq_refl).
Defined.

Lemma context_lookup_returns_witness :
  exists r,
    applyOptions
      [ContextWithValue (Str "a") (Int 1); Secure true;
       Context context.Background]
      Options.zero = Ok r /\
    context_ok (Options.Context r) = true /\
    forall q,
      Options.Context r <> None -> exists v, Options.lookup r q = Ok v.
Proof.
  exact (context_lookup_returns
           [CallContextWithValue (Str "a") (Int 1); CallSecure true;
            CallContext context.Background]
           Options.zero eq_refl eq_refl eq_refl).
Defined.

Lemma Sasl_fields_from_one_call_witness :
  exists r,
    applyOptions
      [Sasl "alice" "secret" "PLAIN"; Secure true;
       Sasl "bob" "hunter2" "SCRAM-SHA-256"]
      Options.zero = Ok r /\
    (Options.Username r, Options.Password r, Options.Algorithm r) =
    ("bob", "hunter2", "SCRAM-SHA-256").
Proof.
  exact (Sasl_fields_from_one_call
           [CallSasl "alice" "secret" "PLAIN"; CallSecure true;
            CallSasl "bob" "hunter2" "SCRAM-SHA-256"]
           Options.zero eq_refl).
Defined.

Lemma Log_never_cleared_witness :
  exists r,
    applyOptions [Log None; Secure true; Context None]
      (Options.set_Log Options.zero (Some noopLogger)) = Ok r /\
    Options.Log r = Some noopLogger.
Proof.
  exact (Log_never_cleared
           [CallLog None; CallSecure true; CallContext None]
           (Options.set_Log Options.zero (Some noopLogger)) noopLogger
           eq_refl eq_refl).
Defined.

Lemma applyOptions_panic_messages_witness :
  applyOptions
    [Secure true; ContextWithValue (Bytes [1; 2]%Z) (Str "v"); Otel true]
    Options.zero = Panic "nil key" \/
  applyOptions
    [Secure true; ContextWithValue (Bytes [1; 2]%Z) (Str "v"); Otel true]
    Options.zero = Panic "key is not comparable".
Proof.
  exact (applyOptions_panic_messages
           [CallSecure true; CallContextWithValue (Bytes [1; 2]%Z) (Str "v");
            CallOtel true]
           Options.zero eq_refl).
Defined.
